(** * pyban: the PDE tutorial's training loop and the spline core it drives

    The repository ships the tutorial notebook
    [tutorials/Example_6_PDE.ipynb]; the package [ban] that it imports
    ([KAN], [LBFGS]) is installed by the documentation workflow but its
    modules are not part of the sources at hand.

    - [Tutorial] embeds the notebook's [train] function: one optimizer
      construction followed by a loop over [range(steps)] that refreshes
      the grid on some iterations and always takes one optimizer step.
      The calls into the package are kept abstract (section variables).
    - [Spline] models the spline basis evaluator and the edge activation
      of the package from the written specification, over exact rationals.
    - [Sampling] embeds the notebook's sample points: the mesh, the four
      boundary sides [x_b] and the interior points [x_i] in both modes.
    - [Loss] embeds the arithmetic of [closure]: the two mean squared
      errors and their weighted sum, over exact rationals.
    - [Symbolic] embeds the loops of the cell that fixes the edges. *)

From Stdlib Require Import String QArith Lqa.
From Stdlib Require Import List Arith Bool Lia PeanoNat.
Import ListNotations.
Close Scope Q_scope.

Module Tutorial.

(** Globals of the notebook cell that defines [train]. *)
Definition steps : nat := 20.
Definition log : nat := 1.

Section Train.

(** State of the global [model] object (grids, coefficients, affine
    parameters).  The optimizer holds references to the same parameter
    tensors, so every call that reads or writes parameters takes and
    returns this state. *)
Variable Model : Type.
(** Private state of one [LBFGS] instance (history window, counters). *)
Variable Optimizer : Type.
(** Loss values. *)
Variable Scalar : Type.

(** [LBFGS(model.parameters(), lr=1, history_size=10, ...)]. *)
Variable LBFGS : Model -> Optimizer.
(** [model.update_grid_from_samples(x_i)]: a method of the model that
    receives the interior sample points only. *)
Variable update_grid_from_samples : Model -> Model.

(** What [optimizer.step(closure)] leaves behind: the optimizer's new
    private state, the updated parameters, and the two globals
    [pde_loss], [bc_loss] written by the last evaluation of [closure]. *)
Record step_result : Type := {
  next_optimizer : Optimizer;
  next_model : Model;
  pde_loss : Scalar;
  bc_loss : Scalar
}.

Variable optimizer_step : Optimizer -> Model -> step_result.
(** [torch.mean((model(x_i) - sol)**2)]. *)
Variable l2_error : Model -> Scalar.

(** Calls observed during one run of [train], in program order. *)
Inductive event : Type :=
| Construct_LBFGS (m : Model) (o : Optimizer)
| Update_grid (i : nat) (before after : Model)
| Optimizer_step (i : nat) (o : Optimizer) (m : Model) (r : step_result)
| Set_description (i : nat) (pde bc l2 : Scalar).

(** [_ % 5 == 0 and _ < 50]. *)
Definition grid_update_due (i : nat) : bool :=
  (i mod 5 =? 0) && (i <? 50).

(** [_ % log == 0]. *)
Definition report_due (i : nat) : bool := i mod log =? 0.

(** Body of [for _ in pbar]. *)
Definition iteration (i : nat) (o : Optimizer) (m : Model)
  : list event * (Optimizer * Model) :=
  let m1 := if grid_update_due i then update_grid_from_samples m else m in
  let r := optimizer_step o m1 in
  let m2 := next_model r in
  ((if grid_update_due i then [Update_grid i m m1] else [])
     ++ Optimizer_step i o m1 r
     :: (if report_due i
         then [Set_description i (pde_loss r) (bc_loss r) (l2_error m2)]
         else []),
   (next_optimizer r, m2)).

(** The loop over the values of [range(steps)]. *)
Fixpoint loop (indices : list nat) (o : Optimizer) (m : Model)
  : list event * (Optimizer * Model) :=
  match indices with
  | [] => ([], (o, m))
  | i :: rest =>
      let it := iteration i o m in
      let tl := loop rest (fst (snd it)) (snd (snd it)) in
      (fst it ++ fst tl, snd tl)
  end.

(** [train()], with the global [steps] made a parameter. *)
Definition train_for (n : nat) (m : Model) : list event * (Optimizer * Model) :=
  let o := LBFGS m in
  let run := loop (seq 0 n) o m in
  (Construct_LBFGS m o :: fst run, snd run).

Definition train (m : Model) : list event * (Optimizer * Model) :=
  train_for steps m.

(** ** Observations on a trace *)

(** Iterations at which the grid was refreshed. *)
Fixpoint update_steps (tr : list event) : list nat :=
  match tr with
  | [] => []
  | Update_grid i _ _ :: rest => i :: update_steps rest
  | _ :: rest => update_steps rest
  end.

(** Iterations at which the optimizer stepped. *)
Fixpoint stepped (tr : list event) : list nat :=
  match tr with
  | [] => []
  | Optimizer_step i _ _ _ :: rest => i :: stepped rest
  | _ :: rest => stepped rest
  end.

(** Number of optimizer constructions. *)
Fixpoint constructions (tr : list event) : nat :=
  match tr with
  | [] => 0
  | Construct_LBFGS _ _ :: rest => S (constructions rest)
  | _ :: rest => constructions rest
  end.

(** Every optimizer step of the trace starts from the private state [o]
    that the previous step left (the first one from [o] itself); events
    of other kinds leave that state alone. *)
Fixpoint history_continues (o : Optimizer) (tr : list event) : Prop :=
  match tr with
  | [] => True
  | Optimizer_step _ o_in _ r :: rest =>
      o_in = o /\ history_continues (next_optimizer r) rest
  | Construct_LBFGS _ _ :: _ => False
  | _ :: rest => history_continues o rest
  end.

(** Iterations whose progress line was refreshed. *)
Fixpoint reports (tr : list event) : list nat :=
  match tr with
  | [] => []
  | Set_description i _ _ _ :: rest => i :: reports rest
  | _ :: rest => reports rest
  end.

(** Every grid refresh of the trace applies [update_grid_from_samples] to
    the model it found and is directly followed by the optimizer step of
    the same iteration, taken on the refreshed model. *)
Fixpoint refresh_then_step (tr : list event) : Prop :=
  match tr with
  | [] => True
  | Update_grid i before after :: rest =>
      after = update_grid_from_samples before
      /\ match rest with
         | Optimizer_step j _ m _ :: _ => j = i /\ m = after
         | _ => False
         end
      /\ refresh_then_step rest
  | _ :: rest => refresh_then_step rest
  end.

(** Every optimizer step of the trace is the result of [optimizer_step]
    and is directly followed by the progress line of the same iteration,
    showing the two losses that step left and the error of the model it
    left. *)
Fixpoint step_then_report (tr : list event) : Prop :=
  match tr with
  | [] => True
  | Optimizer_step i o m r :: rest =>
      r = optimizer_step o m
      /\ match rest with
         | Set_description j pde bc l2 :: _ =>
             j = i /\ pde = pde_loss r /\ bc = bc_loss r
             /\ l2 = l2_error (next_model r)
         | _ => False
         end
      /\ step_then_report rest
  | _ :: rest => step_then_report rest
  end.

(** ** The loop, event by event *)

Lemma update_steps_app (a b : list event) :
  update_steps (a ++ b) = update_steps a ++ update_steps b.
Proof.
  induction a as [|e a IH]; simpl; [reflexivity|].
  destruct e; simpl; rewrite IH; reflexivity.
Qed.

Lemma stepped_app (a b : list event) :
  stepped (a ++ b) = stepped a ++ stepped b.
Proof.
  induction a as [|e a IH]; simpl; [reflexivity|].
  destruct e; simpl; rewrite IH; reflexivity.
Qed.

Lemma constructions_app (a b : list event) :
  constructions (a ++ b) = constructions a + constructions b.
Proof.
  induction a as [|e a IH]; simpl; [reflexivity|].
  destruct e; simpl; rewrite IH; reflexivity.
Qed.

Lemma iteration_update_steps i o m :
  update_steps (fst (iteration i o m)) = if grid_update_due i then [i] else [].
Proof.
  unfold iteration; simpl.
  destruct (grid_update_due i), (report_due i); reflexivity.
Qed.

Lemma iteration_stepped i o m : stepped (fst (iteration i o m)) = [i].
Proof.
  unfold iteration; simpl.
  destruct (grid_update_due i), (report_due i); reflexivity.
Qed.

Lemma iteration_constructions i o m : constructions (fst (iteration i o m)) = 0.
Proof.
  unfold iteration; simpl.
  destruct (grid_update_due i), (report_due i); reflexivity.
Qed.

Lemma loop_cons i rest o m :
  loop (i :: rest) o m
  = (fst (iteration i o m)
       ++ fst (loop rest (fst (snd (iteration i o m))) (snd (snd (iteration i o m)))),
     snd (loop rest (fst (snd (iteration i o m))) (snd (snd (iteration i o m))))).
Proof. reflexivity. Qed.

Lemma loop_update_steps indices : forall o m,
  update_steps (fst (loop indices o m)) = filter grid_update_due indices.
Proof.
  induction indices as [|i rest IH]; intros o m; [reflexivity|].
  rewrite loop_cons; cbn [fst filter].
  rewrite update_steps_app, iteration_update_steps, IH.
  destruct (grid_update_due i); reflexivity.
Qed.

Lemma loop_stepped indices : forall o m,
  stepped (fst (loop indices o m)) = indices.
Proof.
  induction indices as [|i rest IH]; intros o m; [reflexivity|].
  rewrite loop_cons; cbn [fst].
  rewrite stepped_app, iteration_stepped, IH; reflexivity.
Qed.

Lemma loop_constructions indices : forall o m,
  constructions (fst (loop indices o m)) = 0.
Proof.
  induction indices as [|i rest IH]; intros o m; [reflexivity|].
  rewrite loop_cons; cbn [fst].
  rewrite constructions_app, iteration_constructions, IH; reflexivity.
Qed.

Lemma iteration_history i o m rest :
  history_continues (fst (snd (iteration i o m))) rest ->
  history_continues o (fst (iteration i o m) ++ rest).
Proof.
  unfold iteration; simpl.
  destruct (grid_update_due i), (report_due i); simpl; intros H; auto.
Qed.

Lemma loop_history indices : forall o m,
  history_continues o (fst (loop indices o m)).
Proof.
  induction indices as [|i rest IH]; intros o m; [exact I|].
  rewrite loop_cons; cbn [fst].
  apply iteration_history, IH.
Qed.

Lemma grid_update_due_spec i :
  grid_update_due i = true <-> i mod 5 = 0 /\ i < 50.
Proof.
  unfold grid_update_due.
  rewrite andb_true_iff, Nat.eqb_eq, Nat.ltb_lt; reflexivity.
Qed.

Lemma grid_update_not_adjacent i :
  grid_update_due i = true -> grid_update_due (S i) = false.
Proof.
  intros H; apply grid_update_due_spec in H; destruct H as [H5 _].
  destruct (grid_update_due (S i)) eqn:E; [|reflexivity].
  apply grid_update_due_spec in E; destruct E as [E5 _].
  exfalso.
  pose proof (Nat.div_mod_eq i 5); pose proof (Nat.div_mod_eq (S i) 5); lia.
Qed.

(** C8: grid adaptation runs on a schedule, not on every iteration.  In a
    run of [train] over any number of iterations the grid is refreshed
    exactly at the iterations [i] with [i mod 5 = 0] and [i < 50] (every
    fifth step, within the first fifty), never at two iterations in a
    row, while the optimizer steps at every iteration; in the notebook's
    twenty-step run the refreshes are at iterations 0, 5, 10 and 15. *)
Theorem grid_adaptation_is_periodic :
  forall (n : nat) (m : Model),
    update_steps (fst (train_for n m)) = filter grid_update_due (seq 0 n)
    /\ stepped (fst (train_for n m)) = seq 0 n
    /\ (forall i, In i (update_steps (fst (train_for n m)))
                  <-> (i < n /\ i mod 5 = 0 /\ i < 50))
    /\ (forall i, In i (update_steps (fst (train_for n m)))
                  -> ~ In (S i) (update_steps (fst (train_for n m))))
    /\ update_steps (fst (train m)) = [0; 5; 10; 15].
Proof.
  intros n m.
  assert (U : forall k, update_steps (fst (train_for k m))
                        = filter grid_update_due (seq 0 k)).
  { intros k; unfold train_for; simpl; apply loop_update_steps. }
  assert (M : forall i, In i (update_steps (fst (train_for n m)))
                        <-> (i < n /\ i mod 5 = 0 /\ i < 50)).
  { intros i; rewrite U, filter_In, in_seq, grid_update_due_spec; lia. }
  split; [apply U|].
  split; [unfold train_for; simpl; apply loop_stepped|].
  split; [exact M|].
  split.
  - intros i Hi Hs.
    rewrite U in Hi, Hs; apply filter_In in Hi, Hs.
    destruct Hi as [_ Hi], Hs as [_ Hs].
    apply grid_update_not_adjacent in Hi; congruence.
  - unfold train; rewrite U; reflexivity.
Qed.

(** C10: one [LBFGS] instance per call of [train].  The trace of a run
    starts with the construction of the optimizer, nothing after it
    constructs another one, the loop then takes one optimizer step per
    iteration, and every step starts from the private state the previous
    step left, also when [update_grid_from_samples] ran in between. *)
Theorem one_optimizer_spans_grid_updates :
  forall (n : nat) (m : Model),
    exists rest : list event,
      fst (train_for n m) = Construct_LBFGS m (LBFGS m) :: rest
      /\ constructions rest = 0
      /\ constructions (fst (train_for n m)) = 1
      /\ stepped rest = seq 0 n
      /\ history_continues (LBFGS m) rest.
Proof.
  intros n m.
  exists (fst (loop (seq 0 n) (LBFGS m) m)).
  unfold train_for; simpl.
  rewrite loop_constructions, loop_stepped.
  repeat split; apply loop_history.
Qed.

(** ** Further properties of the loop *)

Lemma reports_app (a b : list event) :
  reports (a ++ b) = reports a ++ reports b.
Proof.
  induction a as [|e a IH]; simpl; [reflexivity|].
  destruct e; simpl; rewrite IH; reflexivity.
Qed.

Lemma report_due_always i : report_due i = true.
Proof. unfold report_due, log; rewrite Nat.mod_1_r; reflexivity. Qed.

Lemma iteration_events i o m :
  fst (iteration i o m)
  = (if grid_update_due i
     then [Update_grid i m (update_grid_from_samples m)]
     else [])
    ++ [Optimizer_step i o
          (if grid_update_due i then update_grid_from_samples m else m)
          (optimizer_step o
             (if grid_update_due i then update_grid_from_samples m else m));
        Set_description i
          (pde_loss (optimizer_step o
             (if grid_update_due i then update_grid_from_samples m else m)))
          (bc_loss (optimizer_step o
             (if grid_update_due i then update_grid_from_samples m else m)))
          (l2_error (next_model (optimizer_step o
             (if grid_update_due i then update_grid_from_samples m else m))))].
Proof.
  unfold iteration; cbn [fst]; rewrite report_due_always.
  destruct (grid_update_due i); reflexivity.
Qed.

Lemma loop_reports indices : forall o m,
  reports (fst (loop indices o m)) = indices.
Proof.
  induction indices as [|i rest IH]; intros o m; [reflexivity|].
  rewrite loop_cons; cbn [fst].
  rewrite reports_app, IH, iteration_events.
  destruct (grid_update_due i); reflexivity.
Qed.

Lemma loop_refresh_then_step indices : forall o m,
  refresh_then_step (fst (loop indices o m)).
Proof.
  induction indices as [|i rest IH]; intros o m; [exact I|].
  rewrite loop_cons; cbn [fst]; rewrite iteration_events.
  destruct (grid_update_due i); simpl; auto.
Qed.

Lemma loop_step_then_report indices : forall o m,
  step_then_report (fst (loop indices o m)).
Proof.
  induction indices as [|i rest IH]; intros o m; [exact I|].
  rewrite loop_cons; cbn [fst]; rewrite iteration_events.
  destruct (grid_update_due i); simpl; auto 10.
Qed.

Lemma filter_due_beyond_window a n :
  50 <= a -> filter grid_update_due (seq a n) = [].
Proof.
  intros Ha.
  assert (H : forall i, In i (seq a n) -> grid_update_due i = false).
  { intros i Hi; apply in_seq in Hi.
    destruct (grid_update_due i) eqn:E; [|reflexivity].
    apply grid_update_due_spec in E; lia. }
  induction (seq a n) as [|i l IH]; [reflexivity|].
  cbn [filter]; rewrite (H i (or_introl eq_refl)).
  apply IH; intros j Hj; apply H; right; exact Hj.
Qed.

(** X1: however many iterations a run of [train] is given, it refreshes
    the grid at most ten times; from fifty iterations on the refreshes
    are exactly those of iterations 0, 5, ..., 45 and no later one. *)
Theorem grid_refreshes_are_bounded :
  forall (n : nat) (m : Model),
    length (update_steps (fst (train_for n m))) <= 10
    /\ (50 <= n ->
        update_steps (fst (train_for n m))
        = [0; 5; 10; 15; 20; 25; 30; 35; 40; 45]).
Proof.
  intros n m.
  assert (U : update_steps (fst (train_for n m))
              = filter grid_update_due (seq 0 n)).
  { unfold train_for; cbn [fst update_steps]; apply loop_update_steps. }
  rewrite U; split.
  - destruct (Nat.le_gt_cases n 50) as [H|H].
    + assert (P : length (filter grid_update_due (seq 0 (n + (50 - n))))
                  = 10).
      { replace (n + (50 - n)) with 50 by lia; reflexivity. }
      rewrite seq_app, filter_app, length_app in P; lia.
    + replace n with (50 + (n - 50)) by lia.
      rewrite seq_app, filter_app, (filter_due_beyond_window (0 + 50)) by lia.
      rewrite app_nil_r; apply Nat.le_refl.
  - intros H.
    replace n with (50 + (n - 50)) by lia.
    rewrite seq_app, filter_app, (filter_due_beyond_window (0 + 50)) by lia.
    reflexivity.
Qed.

(** X2: inside an iteration the grid refresh comes first.  Every refresh
    in a run of [train] is the result of [update_grid_from_samples] on
    the model it found and is directly followed by the optimizer step of
    the same iteration, which runs on the refreshed model; a run never
    ends on a refresh. *)
Theorem refresh_precedes_step :
  forall (n : nat) (m : Model),
    refresh_then_step (fst (train_for n m)).
Proof.
  intros n m; unfold train_for; cbn [fst refresh_then_step].
  apply loop_refresh_then_step.
Qed.

(** X3: with [log = 1] every iteration reports.  In a run of [train] each
    optimizer step is directly followed by the progress line of its
    iteration, which shows the two losses written by that step's closure
    and the error of the model after the step; there is one line per
    iteration, in order. *)
Theorem every_step_is_reported :
  forall (n : nat) (m : Model),
    reports (fst (train_for n m)) = seq 0 n
    /\ step_then_report (fst (train_for n m)).
Proof.
  intros n m; unfold train_for; cbn [fst reports step_then_report].
  split; [apply loop_reports|apply loop_step_then_report].
Qed.

End Train.

End Tutorial.

Module Spline.

Local Open Scope Q_scope.

(** ** Failure and the result type

    The package runs on a tensor library whose operations raise on
    operands of different shapes; a quotient by a zero knot span has no
    value.  Both are failures of an evaluation here. *)
Inductive error : Type :=
| Zero_knot_span
| Shape_mismatch.

Inductive result (A : Type) : Type :=
| Ok (a : A)
| Err (e : error).

Arguments Ok {A} a.
Arguments Err {A} e.

Definition bind {A B : Type} (r : result A) (f : A -> result B) : result B :=
  match r with
  | Ok a => f a
  | Err e => Err e
  end.

Notation "x <- r ;; k" := (bind r (fun x => k))
  (at level 61, r at next level, right associativity).

Fixpoint map_result {A B : Type} (f : A -> result B) (l : list A)
  : result (list B) :=
  match l with
  | [] => Ok []
  | a :: rest =>
      b <- f a ;;
      bs <- map_result f rest ;;
      Ok (b :: bs)
  end.

Fixpoint sumQ (l : list Q) : Q :=
  match l with
  | [] => 0
  | a :: rest => a + sumQ rest
  end.

(** ** Grid *)

(** Modelled from the spec: the Grid of package [ban] (not among the
    sources): an ordered sequence of knot coordinates, strictly
    increasing. *)
Fixpoint increasing (t : list Q) : Prop :=
  match t with
  | a :: (b :: _) as rest => a < b /\ increasing rest
  | _ => True
  end.

(** Modelled from the spec: the Grid invariants of package [ban] (not
    among the sources): strictly increasing, count at least the spline
    order plus one. *)
Definition valid_grid (k : nat) (g : list Q) : Prop :=
  increasing g /\ (k + 1 <= length g)%nat.

Definition knot (t : list Q) (i : nat) : Q := nth i t 0.

(** Mean spacing of the knots. *)
Definition spacing (g : list Q) : Q :=
  (last g 0 - hd 0 g) / inject_Z (Z.of_nat (length g - 1)).

Fixpoint extend_by (h : Q) (k : nat) (g : list Q) : list Q :=
  match k with
  | O => g
  | S k' => extend_by h k' ((hd 0 g - h) :: g ++ [last g 0 + h])
  end.

(** Modelled from the spec: the grid extension of package [ban] (not
    among the sources): the knots are extended at both ends by the
    spline order, here by [k] further knots on each side at the grid's
    mean spacing. *)
Definition extend_grid (k : nat) (g : list Q) : list Q :=
  extend_by (spacing g) k g.

(** The covered range of a grid for order [k]: from its first knot to its
    last; at order 0, whose spans are half-open, without the last knot. *)
Definition covered (k : nat) (g : list Q) (x : Q) : Prop :=
  hd 0 g <= x /\ x <= last g 0 /\ (k = 0%nat -> x < last g 0).

(** ** Spline Basis Evaluator *)

(** Indicator of the half-open knot span [[t_i, t_(i+1))]. *)
Definition in_span (t : list Q) (i : nat) (x : Q) : bool :=
  Qle_bool (knot t i) x && negb (Qle_bool (knot t (S i)) x).

Definition checked_div (a b : Q) : result Q :=
  if Qeq_bool b 0 then Err Zero_knot_span else Ok (a / b).

(** Modelled from the spec: the basis functions of the Spline Basis
    Evaluator of package [ban] (not among the sources): the B-spline
    number [i] of order [k] over the knots [t], by the Cox-de Boor
    recursion on the order. *)
Fixpoint basis_value (t : list Q) (k i : nat) (x : Q) {struct k} : result Q :=
  match k with
  | O => Ok (if in_span t i x then 1 else 0)
  | S k' =>
      wl <- checked_div (x - knot t i) (knot t (i + S k') - knot t i) ;;
      wr <- checked_div (knot t (S (i + S k')) - x)
                        (knot t (S (i + S k')) - knot t (S i)) ;;
      bl <- basis_value t k' i x ;;
      br <- basis_value t k' (S i) x ;;
      Ok (wl * bl + wr * br)
  end.

(** Number of basis functions of order [k] over the knots [t]. *)
Definition basis_count (t : list Q) (k : nat) : nat := (length t - k - 1)%nat.

Definition basis_row (t : list Q) (k : nat) (x : Q) : result (list Q) :=
  map_result (fun i => basis_value t k i x) (seq 0 (basis_count t k)).

(** Modelled from the spec: the Spline Basis Evaluator of package [ban]
    (not among the sources): given a grid, a spline order and a batch of
    scalar inputs, the matrix whose rows are the values of all basis
    functions at each input, over the boundary-extended knots. *)
Definition spline_basis (g : list Q) (k : nat) (xs : list Q)
  : result (list (list Q)) :=
  map_result (basis_row (extend_grid k g) k) xs.

(** The same values as plain rationals, for reasoning. *)
Fixpoint B (t : list Q) (k i : nat) (x : Q) {struct k} : Q :=
  match k with
  | O => if in_span t i x then 1 else 0
  | S k' =>
      (x - knot t i) / (knot t (i + S k') - knot t i) * B t k' i x
      + (knot t (S (i + S k')) - x)
        / (knot t (S (i + S k')) - knot t (S i)) * B t k' (S i) x
  end.

Definition B_row (t : list Q) (k : nat) (x : Q) : list Q :=
  map (fun i => B t k i x) (seq 0 (basis_count t k)).

(** ** Edge Activation *)

(** Modelled from the spec: the formula kinds of the Symbolic Descriptor
    of package [ban] (not among the sources): identity, sine and other
    supported closed forms, the latter by name. *)
Inductive formula_kind : Type :=
| Identity
| Sine
| Other_form (name : string).

(** Modelled from the spec: the Symbolic Descriptor of package [ban] (not
    among the sources): a formula kind and four affine parameters. *)
Record descriptor : Type := {
  kind : formula_kind;
  pre_scale : Q;
  pre_shift : Q;
  post_scale : Q;
  post_shift : Q
}.

(** Modelled from the spec: the Edge Activation of package [ban] (not
    among the sources): its grid, its coefficient vector (one weight per
    basis function), an optional base-function weight, and an optional
    symbolic descriptor that overrides spline evaluation when present. *)
Record edge : Type := {
  grid : list Q;
  coef : list Q;
  base_weight : option Q;
  symbolic : option descriptor
}.

(** Modelled from the spec: the Edge Activation invariants of package
    [ban] (not among the sources): a valid grid and one coefficient per
    basis function of the boundary-extended grid. *)
Definition well_formed (k : nat) (e : edge) : Prop :=
  valid_grid k (grid e)
  /\ length (coef e) = basis_count (extend_grid k (grid e)) k.

(** Contraction of the coefficient vector with a basis row; operands of
    different lengths are a shape error. *)
Fixpoint dot (c row : list Q) : result Q :=
  match c, row with
  | [], [] => Ok 0
  | a :: c', b :: row' => s <- dot c' row' ;; Ok (a * b + s)
  | _, _ => Err Shape_mismatch
  end.

Fixpoint dotQ (c row : list Q) : Q :=
  match c, row with
  | a :: c', b :: row' => a * b + dotQ c' row'
  | _, _ => 0
  end.

Section Activation.

(** The fixed nonlinearity of the base term. *)
Variable base_fun : Q -> Q.
(** The closed forms other than the identity (sine and the named ones);
    they are not rational functions and stay abstract. *)
Variable closed_form : formula_kind -> Q -> Q.

Definition formula (f : formula_kind) (x : Q) : Q :=
  match f with
  | Identity => x
  | _ => closed_form f x
  end.

Definition symbolic_value (d : descriptor) (x : Q) : Q :=
  post_scale d * formula (kind d) (pre_scale d * x + pre_shift d)
  + post_shift d.

Definition base_term (e : edge) (x : Q) : Q :=
  match base_weight e with
  | Some w => w * base_fun x
  | None => 0
  end.

(** Modelled from the spec: [evaluate] of the Edge Activation of package
    [ban] (not among the sources), at one input: if symbolic-active,
    apply the closed form with its affine parameters; else compute the
    basis row, contract it with the coefficient vector and add the base
    term. *)
Definition evaluate_at (k : nat) (e : edge) (x : Q) : result Q :=
  match symbolic e with
  | Some d => Ok (symbolic_value d x)
  | None =>
      row <- basis_row (extend_grid k (grid e)) k x ;;
      s <- dot (coef e) row ;;
      Ok (s + base_term e x)
  end.

(** Modelled from the spec: [evaluate(inputs) -> outputs] of the Edge
    Activation of package [ban] (not among the sources), on a batch. *)
Definition evaluate (k : nat) (e : edge) (xs : list Q) : result (list Q) :=
  map_result (evaluate_at k e) xs.

(** The value [evaluate_at] computes, as a plain rational. *)
Definition edge_value (k : nat) (e : edge) (x : Q) : Q :=
  match symbolic e with
  | Some d => symbolic_value d x
  | None =>
      dotQ (coef e) (B_row (extend_grid k (grid e)) k x) + base_term e x
  end.

End Activation.

(** ** Sample data: the tutorial's grid *)

(** [KAN(width=[2,2,1], grid=5, k=3)]: five intervals on [[-1, 1]]. *)
Definition tutorial_grid : list Q :=
  [-1; -(3#5); -(1#5); 1#5; 3#5; 1].

Definition tutorial_inputs : list Q := [-1; 0; 1#2; 99#100; 1].

(** A spline-active edge on the tutorial's grid, order 3 (eight basis
    functions), with a base term. *)
Definition sample_edge : edge :=
  {| grid := tutorial_grid;
     coef := [1; -(1#2); 1#3; 2; 0; -1; 1#4; 3];
     base_weight := Some (1#2);
     symbolic := None |}.

(** Rows of a basis matrix with every entry in lowest terms. *)
Definition reduced (r : result (list (list Q))) : list (list Q) :=
  match r with
  | Ok rows => map (map Qred) rows
  | Err _ => []
  end.

(** Inputs inside, at the ends of, and far outside the covered range. *)
Definition far_inputs : list Q := [-100; -(3#2); -1; 0; 1; 3#2; 7; 1000].

(** ** Knots in increasing order *)

Lemma increasing_tail a t : increasing (a :: t) -> increasing t.
Proof. destruct t as [|b t]; simpl; [trivial|intros [_ H]; exact H]. Qed.

Lemma increasing_head_lt t : forall a j,
  increasing (a :: t) -> (j < length t)%nat -> a < knot (a :: t) (S j).
Proof.
  induction t as [|b t IH]; intros a j H Hj; simpl in Hj; [lia|].
  destruct H as [Hab H].
  destruct j as [|j]; [exact Hab|].
  apply Qlt_trans with b; [exact Hab|].
  apply (IH b j H); lia.
Qed.

Lemma increasing_knots t : increasing t ->
  forall i j, (i < j < length t)%nat -> knot t i < knot t j.
Proof.
  induction t as [|a t IH]; intros H i j Hij; simpl in Hij; [lia|].
  destruct j as [|j]; [lia|].
  destruct i as [|i].
  - apply increasing_head_lt; [exact H|lia].
  - apply (IH (increasing_tail _ _ H)); lia.
Qed.

Lemma increasing_knots_le t : increasing t ->
  forall i j, (i <= j < length t)%nat -> knot t i <= knot t j.
Proof.
  intros H i j Hij.
  destruct (Nat.eq_dec i j) as [->|Hne]; [apply Qle_refl|].
  apply Qlt_le_weak, increasing_knots; [exact H|lia].
Qed.

Lemma sumQ_zero (f : nat -> Q) (l : list nat) :
  (forall i, In i l -> f i == 0) -> sumQ (map f l) == 0.
Proof.
  induction l as [|a l IH]; intros H; simpl; [reflexivity|].
  rewrite (H a (or_introl eq_refl)), IH; [ring|].
  intros i Hi; apply H; right; exact Hi.
Qed.

Lemma sumQ_seq_snoc (f : nat -> Q) n : forall a,
  sumQ (map f (seq a (S n))) == sumQ (map f (seq a n)) + f (a + n)%nat.
Proof.
  induction n as [|n IH]; intros a.
  - cbn [seq map sumQ]; rewrite Nat.add_0_r; ring.
  - change (seq a (S (S n))) with (a :: seq (S a) (S n)).
    change (seq a (S n)) with (a :: seq (S a) n).
    cbn [map sumQ]; rewrite (IH (S a)).
    replace (S a + n)%nat with (a + S n)%nat by lia; ring.
Qed.

Lemma unit_weight (lo hi x : Q) :
  x == lo -> ~ hi - lo == 0 -> (hi - x) / (hi - lo) == 1.
Proof.
  intros Hx H.
  setoid_replace (hi - x) with (hi - lo) by lra.
  field; exact H.
Qed.

Lemma complement_weight (lo hi x : Q) :
  ~ hi - lo == 0 -> (hi - x) / (hi - lo) == 1 - (x - lo) / (hi - lo).
Proof. intros H; field; exact H. Qed.

Lemma B_succ t k i x :
  B t (S k) i x
  = (x - knot t i) / (knot t (i + S k) - knot t i) * B t k i x
    + (knot t (S (i + S k)) - x)
      / (knot t (S (i + S k)) - knot t (S i)) * B t k (S i) x.
Proof. reflexivity. Qed.

Section Basis.

Variable t : list Q.
Hypothesis t_increasing : increasing t.
Variable x : Q.

(** Left of its first knot a basis function vanishes. *)
Lemma B_zero_left k : forall i,
  (i + k + 1 < length t)%nat -> x < knot t i -> B t k i x == 0.
Proof.
  induction k as [|k IH]; intros i Hi Hx.
  - simpl; unfold in_span.
    destruct (Qle_bool (knot t i) x) eqn:E; [|reflexivity].
    apply Qle_bool_iff in E; lra.
  - rewrite B_succ, (IH i), (IH (S i)); [ring|lia| |lia|exact Hx].
    apply Qlt_trans with (knot t i); [exact Hx|].
    apply increasing_knots; [exact t_increasing|lia].
Qed.

(** From its last knot on a basis function vanishes. *)
Lemma B_zero_right k : forall i,
  (i + k + 1 < length t)%nat -> knot t (S (i + k)) <= x -> B t k i x == 0.
Proof.
  induction k as [|k IH]; intros i Hi Hx.
  - simpl; unfold in_span.
    rewrite Nat.add_0_r in Hx.
    apply Qle_bool_iff in Hx; rewrite Hx, andb_false_r; reflexivity.
  - rewrite B_succ, (IH i), (IH (S i)); [ring|lia| |lia|].
    + simpl; rewrite Nat.add_succ_r in Hx; exact Hx.
    + apply Qle_trans with (knot t (S (i + S k))); [|exact Hx].
      rewrite Nat.add_succ_r.
      apply increasing_knots_le; [exact t_increasing|lia].
Qed.

Lemma knot_span_nonzero i j :
  (i < j < length t)%nat -> ~ knot t j - knot t i == 0.
Proof.
  intros H; pose proof (increasing_knots t t_increasing i j H); lra.
Qed.

(** Order 0: the spans between knot [a] and knot [a + n] are disjoint and
    cover that range. *)
Lemma B0_partition n : forall a,
  (a + n < length t)%nat -> knot t a <= x -> x < knot t (a + n) ->
  sumQ (map (fun i => B t 0 i x) (seq a n)) == 1.
Proof.
  induction n as [|n IH]; intros a Ha Hl Hr.
  - rewrite Nat.add_0_r in Hr; lra.
  - cbn [seq map sumQ].
    destruct (Qlt_le_dec x (knot t (S a))) as [Hlt|Hge].
    + rewrite sumQ_zero.
      * cbn [B]; unfold in_span.
        apply Qle_bool_iff in Hl; rewrite Hl.
        destruct (Qle_bool (knot t (S a)) x) eqn:E; [|simpl; ring].
        apply Qle_bool_iff in E; lra.
      * intros i Hi; apply in_seq in Hi.
        apply B_zero_left; [lia|].
        apply Qlt_le_trans with (knot t (S a)); [exact Hlt|].
        apply increasing_knots_le; [exact t_increasing|lia].
    + rewrite (B_zero_right 0 a), IH; [ring|lia|exact Hge| | |].
      * rewrite Nat.add_succ_r in Hr; exact Hr.
      * lia.
      * rewrite Nat.add_0_r; exact Hge.
Qed.

(** One step of the recursion, summed over consecutive indices: the
    inner terms pair up, each pair of weights adding to one. *)
Lemma B_sum_telescopes k n : forall a,
  (a + S n + S k < length t)%nat ->
  sumQ (map (fun i => B t (S k) i x) (seq a (S n)))
  == (x - knot t a) / (knot t (a + S k) - knot t a) * B t k a x
     + sumQ (map (fun i => B t k i x) (seq (S a) n))
     + (knot t (S (a + n + S k)) - x)
       / (knot t (S (a + n + S k)) - knot t (S (a + n))) * B t k (S (a + n)) x.
Proof.
  induction n as [|n IH]; intros a Ha.
  - cbn [seq map sumQ]; rewrite B_succ, Nat.add_0_r; ring.
  - change (seq a (S (S n))) with (a :: seq (S a) (S n)).
    cbn [map sumQ]; rewrite (IH (S a)) by lia.
    rewrite B_succ.
    change (seq (S a) (S n)) with (S a :: seq (S (S a)) n).
    cbn [map sumQ].
    replace (S a + n + S k)%nat with (a + S n + S k)%nat by lia.
    replace (S a + n)%nat with (a + S n)%nat by lia.
    replace (S a + S k)%nat with (S (a + S k)) by lia.
    rewrite (complement_weight (knot t (S a)) (knot t (S (a + S k))) x)
      by (apply knot_span_nonzero; lia).
    ring.
Qed.

(** Partition of unity over an arbitrary increasing knot vector: the
    basis functions [a .. a + n - 1] of order [k] add up to one between
    knot [a + k] and knot [a + n]. *)
Lemma B_partition k : forall a n,
  (a + n + k < length t)%nat ->
  knot t (a + k) <= x -> x < knot t (a + n) ->
  sumQ (map (fun i => B t k i x) (seq a n)) == 1.
Proof.
  induction k as [|k IH]; intros a n Hlen Hl Hr.
  - rewrite Nat.add_0_r in Hl; apply B0_partition; [lia|exact Hl|exact Hr].
  - assert (Hn : (S k < n)%nat).
    { destruct (Nat.lt_ge_cases (S k) n) as [H|H]; [exact H|].
      pose proof (increasing_knots_le t t_increasing (a + n) (a + S k)
                    ltac:(lia)).
      lra. }
    destruct n as [|n]; [lia|].
    rewrite B_sum_telescopes by lia.
    rewrite (B_zero_right k a), (B_zero_left k (S (a + n))), (IH (S a) n).
    + ring.
    + lia.
    + simpl; rewrite Nat.add_succ_r in Hl; exact Hl.
    + simpl; rewrite Nat.add_succ_r in Hr; exact Hr.
    + lia.
    + rewrite Nat.add_succ_r in Hr; exact Hr.
    + lia.
    + rewrite Nat.add_succ_r in Hl; exact Hl.
Qed.

(** At the right end of the range the sum is still one when the order is
    positive: the last weight is one there. *)
Lemma B_partition_at_knot k : forall a n,
  (a + S n + S k < length t)%nat ->
  knot t (a + S k) <= x -> x == knot t (a + S n) ->
  sumQ (map (fun i => B t (S k) i x) (seq a (S n))) == 1.
Proof.
  intros a n Hlen Hl Hx.
  rewrite B_sum_telescopes by lia.
  rewrite (B_zero_right k a); [|lia|rewrite Nat.add_succ_r in Hl; exact Hl].
  rewrite unit_weight;
    [|rewrite Nat.add_succ_r in Hx; exact Hx|apply knot_span_nonzero; lia].
  assert (P : sumQ (map (fun i => B t k i x) (seq (S a) (S n))) == 1).
  { apply B_partition.
    - lia.
    - simpl; rewrite Nat.add_succ_r in Hl; exact Hl.
    - pose proof (increasing_knots t t_increasing (a + S n) (S a + S n)
                    ltac:(lia)); lra. }
  rewrite sumQ_seq_snoc in P; simpl in P.
  transitivity (sumQ (map (fun i => B t k i x) (seq (S a) n))
                + B t k (S (a + n)) x); [ring|exact P].
Qed.

End Basis.

(** ** The boundary-extended grid *)

Lemma hd_knot (g : list Q) : hd 0 g = knot g 0.
Proof. destruct g; reflexivity. Qed.

Lemma last_knot (g : list Q) : last g 0 = knot g (length g - 1).
Proof.
  induction g as [|a g IH]; [reflexivity|].
  destruct g as [|b g]; [reflexivity|].
  change (last (a :: b :: g) 0) with (last (b :: g) 0).
  rewrite IH; simpl; rewrite Nat.sub_0_r; reflexivity.
Qed.

Lemma increasing_snoc b : forall g,
  increasing g -> (g = [] \/ last g 0 < b) -> increasing (g ++ [b]).
Proof.
  induction g as [|a g IH]; intros H Hb; [exact I|].
  destruct g as [|c g].
  - destruct Hb as [Hb|Hb]; [discriminate|]; simpl; split; [exact Hb|exact I].
  - destruct H as [Hac H].
    split; [exact Hac|].
    apply (IH H); right.
    destruct Hb as [Hb|Hb]; [discriminate|exact Hb].
Qed.

Lemma increasing_cons a g :
  increasing g -> (g = [] \/ a < hd 0 g) -> increasing (a :: g).
Proof.
  destruct g as [|b g]; intros H Ha; [exact I|].
  destruct Ha as [Ha|Ha]; [discriminate|]; split; [exact Ha|exact H].
Qed.

Lemma extend_by_increasing h k : 0 < h -> forall g,
  g <> [] -> increasing g -> increasing (extend_by h k g).
Proof.
  intros Hh; induction k as [|k IH]; intros g Hg H; [exact H|].
  cbn [extend_by]; apply IH; [discriminate|].
  apply increasing_cons.
  - apply increasing_snoc; [exact H|right; lra].
  - right; destruct g as [|a g]; [contradiction|]; simpl; lra.
Qed.

Lemma extend_by_length h k : forall g,
  length (extend_by h k g) = (length g + 2 * k)%nat.
Proof.
  induction k as [|k IH]; intros g; cbn [extend_by]; [lia|].
  rewrite IH; cbn [length]; rewrite length_app; simpl; lia.
Qed.

Lemma extend_by_knot h k : forall g j,
  (j < length g)%nat -> knot (extend_by h k g) (k + j) = knot g j.
Proof.
  induction k as [|k IH]; intros g j Hj; [reflexivity|].
  cbn [extend_by].
  replace (S k + j)%nat with (k + S j)%nat by lia.
  rewrite IH by (cbn [length]; rewrite length_app; simpl; lia).
  unfold knot; cbn [nth]; apply app_nth1; exact Hj.
Qed.

Lemma inject_nat_pos (n : nat) : (0 < n)%nat -> 0 < inject_Z (Z.of_nat n).
Proof. intros H; unfold Qlt; simpl; lia. Qed.

Lemma spacing_pos (g : list Q) :
  increasing g -> (2 <= length g)%nat -> 0 < spacing g.
Proof.
  intros H Hlen; unfold spacing.
  apply Qlt_shift_div_l; [apply inject_nat_pos; lia|].
  rewrite hd_knot, last_knot.
  pose proof (increasing_knots g H 0 (length g - 1) ltac:(lia)); lra.
Qed.

Lemma extend_grid_increasing k g :
  valid_grid k g -> increasing (extend_grid k g).
Proof.
  intros [H Hlen]; unfold extend_grid.
  destruct k as [|k]; [exact H|].
  apply extend_by_increasing; [apply spacing_pos; [exact H|lia]| |exact H].
  destruct g; [simpl in Hlen; lia|discriminate].
Qed.

Lemma extend_grid_length k g :
  length (extend_grid k g) = (length g + 2 * k)%nat.
Proof. apply extend_by_length. Qed.

Lemma extend_grid_count k g :
  (1 <= length g)%nat ->
  basis_count (extend_grid k g) k = (k + (length g - 1))%nat.
Proof. intros H; unfold basis_count; rewrite extend_grid_length; lia. Qed.

(** ** The evaluator computes the basis values *)

Lemma map_result_ok {A C : Type} (f : A -> result C) (v : A -> C) (l : list A) :
  (forall a, In a l -> f a = Ok (v a)) -> map_result f l = Ok (map v l).
Proof.
  induction l as [|a l IH]; intros H; [reflexivity|].
  cbn [map_result map].
  rewrite (H a (or_introl eq_refl)), IH; [reflexivity|].
  intros b Hb; apply H; right; exact Hb.
Qed.

Lemma checked_div_ok (a b : Q) : ~ b == 0 -> checked_div a b = Ok (a / b).
Proof.
  intros H; unfold checked_div.
  destruct (Qeq_bool b 0) eqn:E; [|reflexivity].
  apply Qeq_bool_iff in E; contradiction.
Qed.

Lemma basis_value_ok t x : increasing t -> forall k i,
  (i + k + 1 < length t)%nat -> basis_value t k i x = Ok (B t k i x).
Proof.
  intros Ht; induction k as [|k IH]; intros i Hi; [reflexivity|].
  cbn [basis_value B].
  rewrite !checked_div_ok by (apply knot_span_nonzero; [exact Ht|lia]).
  rewrite (IH i), (IH (S i)) by lia.
  reflexivity.
Qed.

Lemma basis_row_ok t k x :
  increasing t -> basis_row t k x = Ok (B_row t k x).
Proof.
  intros Ht; unfold basis_row, B_row.
  apply map_result_ok; intros i Hi; apply in_seq in Hi.
  apply basis_value_ok; [exact Ht|unfold basis_count in Hi; lia].
Qed.

Lemma B_row_length t k x : length (B_row t k x) = basis_count t k.
Proof. unfold B_row; rewrite length_map, length_seq; reflexivity. Qed.

Lemma extend_grid_first k g :
  (1 <= length g)%nat -> knot (extend_grid k g) k = hd 0 g.
Proof.
  intros H; replace k with (k + 0)%nat at 2 by lia.
  unfold extend_grid; rewrite extend_by_knot by lia.
  symmetry; apply hd_knot.
Qed.

Lemma extend_grid_last k g :
  (1 <= length g)%nat ->
  knot (extend_grid k g) (k + (length g - 1)) = last g 0.
Proof.
  intros H; unfold extend_grid; rewrite extend_by_knot by lia.
  symmetry; apply last_knot.
Qed.

Lemma B_row_sums_to_one k g x :
  valid_grid k g -> covered k g x -> sumQ (B_row (extend_grid k g) k x) == 1.
Proof.
  intros Hg (Hlo & Hhi & Hk).
  pose proof (extend_grid_increasing k g Hg) as Ht.
  destruct Hg as [Hinc Hlen].
  pose proof (extend_grid_length k g) as Hl.
  unfold B_row; rewrite extend_grid_count by lia.
  destruct (Qlt_le_dec x (last g 0)) as [Hlt|Hge].
  - apply B_partition; [exact Ht|lia| |].
    + change (0 + k)%nat with k; rewrite extend_grid_first by lia; exact Hlo.
    + change (0 + (k + (length g - 1)))%nat with (k + (length g - 1))%nat.
      rewrite extend_grid_last by lia; exact Hlt.
  - destruct k as [|k]; [specialize (Hk eq_refl); lra|].
    replace (S k + (length g - 1))%nat with (S (k + (length g - 1))) by lia.
    apply B_partition_at_knot; [exact Ht|lia| |].
    + change (0 + S k)%nat with (S k); rewrite extend_grid_first by lia.
      exact Hlo.
    + change (0 + S (k + (length g - 1)))%nat with (S k + (length g - 1))%nat.
      rewrite extend_grid_last by lia; lra.
Qed.

Lemma dot_ok : forall c row,
  length c = length row -> dot c row = Ok (dotQ c row).
Proof.
  induction c as [|a c IH]; intros [|b row] H; simpl in H;
    try discriminate; [reflexivity|].
  cbn [dot dotQ]; rewrite IH by lia; reflexivity.
Qed.

(** C4: partition of unity.  For a valid grid (strictly increasing, at
    least order plus one knots), every spline order and every batch of
    inputs inside the covered range (first knot to last knot; at order 0
    short of the last knot), the basis evaluator returns a matrix with
    one row per input, and each row of basis-function values adds up to
    exactly one. *)
Theorem basis_rows_sum_to_one :
  forall (g : list Q) (k : nat) (xs : list Q),
    valid_grid k g ->
    Forall (covered k g) xs ->
    exists rows : list (list Q),
      spline_basis g k xs = Ok rows
      /\ length rows = length xs
      /\ Forall (fun row => sumQ row == 1) rows.
Proof.
  intros g k xs Hg Hxs.
  exists (map (B_row (extend_grid k g) k) xs).
  split; [|split].
  - unfold spline_basis; apply map_result_ok.
    intros x _; apply basis_row_ok, extend_grid_increasing, Hg.
  - apply length_map.
  - apply Forall_map.
    revert Hxs; apply Forall_impl.
    intros x Hx; apply B_row_sums_to_one; [exact Hg|exact Hx].
Qed.

Lemma tutorial_grid_valid : valid_grid 3 tutorial_grid.
Proof. split; [simpl; repeat split; reflexivity|simpl; lia]. Qed.

Lemma basis_rows_sum_to_one_tutorial :
  valid_grid 3 tutorial_grid
  /\ Forall (covered 3 tutorial_grid) tutorial_inputs
  /\ exists rows : list (list Q),
       spline_basis tutorial_grid 3 tutorial_inputs = Ok rows
       /\ length rows = length tutorial_inputs
       /\ Forall (fun row => sumQ row == 1) rows.
Proof.
  pose proof tutorial_grid_valid as Hg.
  assert (Hxs : Forall (covered 3 tutorial_grid) tutorial_inputs).
  { repeat constructor; simpl; try lra; discriminate. }
  split; [exact Hg|split; [exact Hxs|]].
  apply (basis_rows_sum_to_one tutorial_grid 3 tutorial_inputs Hg Hxs).
Defined.

(** C5: evaluation is total.  On a well-formed edge (valid grid, one
    coefficient per basis function) [evaluate] succeeds on every batch of
    inputs, inside or outside the covered range; a spline-active edge
    yields at each input the contraction of its coefficients with the
    basis row over the boundary-extended knots plus the base term, a
    symbolic-active edge its closed form. *)
Theorem evaluate_never_fails :
  forall (base_fun : Q -> Q) (closed_form : formula_kind -> Q -> Q)
         (k : nat) (e : edge) (xs : list Q),
    well_formed k e ->
    evaluate base_fun closed_form k e xs
    = Ok (map (edge_value base_fun closed_form k e) xs).
Proof.
  intros base_fun closed_form k e xs [Hg Hc].
  unfold evaluate; apply map_result_ok; intros x _.
  unfold evaluate_at, edge_value.
  destruct (symbolic e) as [d|]; [reflexivity|].
  rewrite basis_row_ok by (apply extend_grid_increasing, Hg).
  cbn [bind]; rewrite dot_ok by (rewrite B_row_length; exact Hc).
  reflexivity.
Qed.

Lemma evaluate_never_fails_far_inputs :
  well_formed 3 sample_edge
  /\ evaluate (fun x => x) (fun _ x => x) 3 sample_edge far_inputs
     = Ok (map (edge_value (fun x => x) (fun _ x => x) 3 sample_edge)
               far_inputs).
Proof.
  assert (Hw : well_formed 3 sample_edge).
  { split; [exact tutorial_grid_valid|reflexivity]. }
  split; [exact Hw|].
  apply (evaluate_never_fails (fun x => x) (fun _ x => x) 3 sample_edge
           far_inputs Hw).
Defined.

(** ** The model on concrete inputs *)

(** At a knot of a uniform grid the cubic basis takes the values
    1/6, 2/3, 1/6. *)
Example cubic_basis_at_first_knot :
  reduced (spline_basis tutorial_grid 3 [-1])
  = [[1#6; 2#3; 1#6; 0; 0; 0; 0; 0]].
Proof. vm_compute; reflexivity. Qed.

(** Outside the covered range the same rows are produced from the
    extended knots; they no longer add up to one, and vanish beyond the
    last extended knot. *)
Example cubic_basis_outside :
  reduced (spline_basis tutorial_grid 3 [8#5; 1000])
  = [[0; 0; 0; 0; 0; 0; 1#48; 23#48]; [0; 0; 0; 0; 0; 0; 0; 0]].
Proof. vm_compute; reflexivity. Qed.

(** Order 0 has half-open spans: the last knot lies in none of them. *)
Example order0_basis_at_last_knot :
  reduced (spline_basis [0; 1; 2] 0 [1#2; 1; 2]) = [[1; 0]; [0; 1]; [0; 0]].
Proof. vm_compute; reflexivity. Qed.

(** Repeated knots and a short coefficient vector are the two failures. *)
Example repeated_knot_fails :
  evaluate_at (fun x => x) (fun _ x => x) 3
    {| grid := [0; 0; 1]; coef := [1; 1; 1; 1; 1];
       base_weight := None; symbolic := None |} 0
  = Err Zero_knot_span.
Proof. vm_compute; reflexivity. Qed.

Example short_coefficients_fail :
  evaluate_at (fun x => x) (fun _ x => x) 3
    {| grid := tutorial_grid; coef := [1; 1; 1; 1; 1];
       base_weight := None; symbolic := None |} 0
  = Err Shape_mismatch.
Proof. vm_compute; reflexivity. Qed.

End Spline.

Module Sampling.

Local Open Scope Q_scope.

(** Globals of the notebook cell that builds the sample points. *)
Definition np_i : nat := 21.
Definition ranges : Q * Q := (-1, 1).
Definition sampling_mode : string := "random".

(** A failed tensor operation (an index out of range, operands of
    different lengths) is [None]. *)
Definition and_then {A B : Type} (r : option A) (f : A -> option B)
  : option B :=
  match r with
  | Some a => f a
  | None => None
  end.

Notation "x <- r ;; k" := (and_then r (fun x => k))
  (at level 61, r at next level, right associativity).

Fixpoint map_option {A B : Type} (f : A -> option B) (l : list A)
  : option (list B) :=
  match l with
  | [] => Some []
  | a :: rest =>
      b <- f a ;;
      bs <- map_option f rest ;;
      Some (b :: bs)
  end.

(** Entry [i] of [torch.linspace(lo, hi, steps=n)]. *)
Definition point (lo hi : Q) (n i : nat) : Q :=
  lo + inject_Z (Z.of_nat i) * ((hi - lo) / inject_Z (Z.of_nat (n - 1))).

(** [torch.linspace(lo, hi, steps=n)]. *)
Definition linspace (lo hi : Q) (n : nat) : list Q :=
  map (point lo hi n) (seq 0 n).

(** [torch.meshgrid(xs, ys, indexing="ij")]: [X[i][j] = xs[i]] and
    [Y[i][j] = ys[j]]. *)
Definition meshgrid (xs ys : list Q) : list (list Q) * list (list Q) :=
  (map (fun x => map (fun _ => x) ys) xs, map (fun _ => ys) xs).

(** [T[i]], [T[-1]], [T[:,j]] and [T[:,-1]] of a two-dimensional tensor
    given by its rows. *)
Definition row (t : list (list Q)) (i : nat) : option (list Q) :=
  nth_error t i.

Definition last_row (t : list (list Q)) : option (list Q) :=
  nth_error t (length t - 1).

Definition column (t : list (list Q)) (j : nat) : option (list Q) :=
  map_option (fun r => nth_error r j) t.

Definition last_column (t : list (list Q)) : option (list Q) :=
  map_option (fun r => nth_error r (length r - 1)) t.

(** [helper = lambda X, Y: torch.stack([X.reshape(-1,), Y.reshape(-1,)]).permute(1,0)]
    on flat tensors: the rows [(X[i], Y[i])]; stacking tensors of
    different lengths fails. *)
Definition helper (a b : list Q) : option (list (Q * Q)) :=
  if (length a =? length b)%nat then Some (combine a b) else None.

(** The four sides [xb1 .. xb4] and their concatenation [x_b]. *)
Definition boundary_from (x_mesh y_mesh : list Q) : option (list (Q * Q)) :=
  x_first <- row (fst (meshgrid x_mesh y_mesh)) 0 ;;
  y_first <- row (snd (meshgrid x_mesh y_mesh)) 0 ;;
  xb1 <- helper x_first y_first ;;
  x_last <- last_row (fst (meshgrid x_mesh y_mesh)) ;;
  xb2 <- helper x_last y_first ;;
  x_col <- column (fst (meshgrid x_mesh y_mesh)) 0 ;;
  y_col <- column (snd (meshgrid x_mesh y_mesh)) 0 ;;
  xb3 <- helper x_col y_col ;;
  y_last_col <- last_column (snd (meshgrid x_mesh y_mesh)) ;;
  xb4 <- helper x_col y_last_col ;;
  Some (xb1 ++ xb2 ++ xb3 ++ xb4).

Definition boundary_points (lo hi : Q) (n : nat) : option (list (Q * Q)) :=
  boundary_from (linspace lo hi n) (linspace lo hi n).

Definition x_b : option (list (Q * Q)) :=
  boundary_points (fst ranges) (snd ranges) np_i.

(** [torch.rand(...)*2-1], row by row. *)
Definition rescale (p : Q * Q) : Q * Q := (fst p * 2 - 1, snd p * 2 - 1).

(** The interior points [x_i]: the flattened mesh when the mode is
    ['mesh'], the rescaled random draws [rand] for any other mode. *)
Definition interior_from (mode : string) (rand : list (Q * Q))
  (x_mesh y_mesh : list Q) : option (list (Q * Q)) :=
  if String.eqb mode "mesh"
  then helper (concat (fst (meshgrid x_mesh y_mesh)))
              (concat (snd (meshgrid x_mesh y_mesh)))
  else Some (map rescale rand).

Definition interior_points (mode : string) (rand : list (Q * Q))
  (lo hi : Q) (n : nat) : option (list (Q * Q)) :=
  interior_from mode rand (linspace lo hi n) (linspace lo hi n).



(** A point of the closed square [[lo, hi] x [lo, hi]]. *)
Definition in_square (lo hi : Q) (p : Q * Q) : Prop :=
  (lo <= fst p /\ fst p <= hi) /\ (lo <= snd p /\ snd p <= hi).

(** A draw of [torch.rand]: both coordinates in [[0, 1)]. *)
Definition unit_draw (p : Q * Q) : Prop :=
  (0 <= fst p /\ fst p < 1) /\ (0 <= snd p /\ snd p < 1).

(** ** Indexing a mesh grid *)

Lemma nth_error_last {A : Type} (d : A) (l : list A) :
  l <> [] -> nth_error l (length l - 1) = Some (last l d).
Proof.
  induction l as [|a l IH]; intros H; [contradiction|].
  destruct l as [|b l]; [reflexivity|].
  change (last (a :: b :: l) d) with (last (b :: l) d).
  rewrite <- IH by discriminate.
  simpl; rewrite Nat.sub_0_r; reflexivity.
Qed.

Lemma map_option_some {A B : Type} (f : A -> option B) (v : A -> B)
  (l : list A) :
  (forall a, In a l -> f a = Some (v a)) -> map_option f l = Some (map v l).
Proof.
  induction l as [|a l IH]; intros H; [reflexivity|].
  cbn [map_option map].
  rewrite (H a (or_introl eq_refl)), IH; [reflexivity|].
  intros b Hb; apply H; right; exact Hb.
Qed.

Lemma helper_same_length (a b : list Q) :
  length a = length b -> helper a b = Some (combine a b).
Proof. intros H; unfold helper; rewrite H, Nat.eqb_refl; reflexivity. Qed.

Lemma combine_const_l (c : Q) (l : list Q) :
  combine (map (fun _ => c) l) l = map (fun y => (c, y)) l.
Proof. induction l as [|a l IH]; simpl; [|rewrite IH]; reflexivity. Qed.

Lemma combine_const_r (c : Q) (l : list Q) :
  combine l (map (fun _ => c) l) = map (fun x => (x, c)) l.
Proof. induction l as [|a l IH]; simpl; [|rewrite IH]; reflexivity. Qed.

Lemma combine_app_same {A B : Type} (a1 a2 : list A) (b1 b2 : list B) :
  length a1 = length b1 ->
  combine (a1 ++ a2) (b1 ++ b2) = combine a1 b1 ++ combine a2 b2.
Proof.
  revert b1; induction a1 as [|x a1 IH]; intros [|y b1] H; simpl in H;
    try discriminate; [reflexivity|].
  simpl; rewrite IH by lia; reflexivity.
Qed.

(** The four sides, for any two non-empty meshes: the first and last
    abscissa against every ordinate, then every abscissa against the
    first and last ordinate. *)
Lemma boundary_from_sides (xs ys : list Q) :
  xs <> [] -> ys <> [] ->
  boundary_from xs ys
  = Some (map (fun y => (hd 0 xs, y)) ys
          ++ map (fun y => (last xs 0, y)) ys
          ++ map (fun x => (x, hd 0 ys)) xs
          ++ map (fun x => (x, last ys 0)) xs).
Proof.
  intros Hx Hy; unfold boundary_from, meshgrid; cbn [fst snd].
  assert (R0 : row (map (fun x => map (fun _ : Q => x) ys) xs) 0
               = Some (map (fun _ => hd 0 xs) ys)).
  { destruct xs; [contradiction|reflexivity]. }
  assert (R1 : row (map (fun _ : Q => ys) xs) 0 = Some ys).
  { destruct xs; [contradiction|reflexivity]. }
  assert (R2 : last_row (map (fun x => map (fun _ : Q => x) ys) xs)
               = Some (map (fun _ => last xs 0) ys)).
  { unfold last_row; rewrite length_map, nth_error_map.
    rewrite (nth_error_last 0 xs Hx); reflexivity. }
  assert (C0 : column (map (fun x => map (fun _ : Q => x) ys) xs) 0
               = Some xs).
  { unfold column; rewrite <- (map_id xs) at 2.
    rewrite (map_option_some _ (fun r => hd 0 r)), map_map.
    - f_equal; apply map_ext; intros x.
      destruct ys; [contradiction|reflexivity].
    - intros r Hr; apply in_map_iff in Hr; destruct Hr as (x & <- & _).
      destruct ys; [contradiction|reflexivity]. }
  assert (C1 : column (map (fun _ : Q => ys) xs) 0
               = Some (map (fun _ => hd 0 ys) xs)).
  { unfold column.
    rewrite (map_option_some _ (fun r => hd 0 r)), map_map; [reflexivity|].
    intros r Hr; apply in_map_iff in Hr; destruct Hr as (x & <- & _).
    destruct ys; [contradiction|reflexivity]. }
  assert (C2 : last_column (map (fun _ : Q => ys) xs)
               = Some (map (fun _ => last ys 0) xs)).
  { unfold last_column.
    rewrite (map_option_some _ (fun r => last r 0)), map_map; [reflexivity|].
    intros r Hr; apply in_map_iff in Hr; destruct Hr as (x & <- & _).
    apply nth_error_last; exact Hy. }
  rewrite R0, R1; cbn [and_then].
  rewrite helper_same_length by apply length_map; cbn [and_then].
  rewrite R2; cbn [and_then].
  rewrite helper_same_length by apply length_map; cbn [and_then].
  rewrite C0, C1; cbn [and_then].
  rewrite helper_same_length by (symmetry; apply length_map); cbn [and_then].
  rewrite C2; cbn [and_then].
  rewrite helper_same_length by (symmetry; apply length_map); cbn [and_then].
  rewrite !combine_const_l, !combine_const_r; reflexivity.
Qed.

(** Flattening the two mesh tensors and pairing them up lists the
    Cartesian product, first coordinate slowest. *)
Lemma mesh_pairs (xs ys : list Q) :
  combine (concat (fst (meshgrid xs ys))) (concat (snd (meshgrid xs ys)))
  = list_prod xs ys.
Proof.
  unfold meshgrid; cbn [fst snd].
  induction xs as [|x xs IH]; [reflexivity|].
  cbn [map concat list_prod].
  rewrite combine_app_same by apply length_map.
  rewrite combine_const_l, IH; reflexivity.
Qed.

Lemma mesh_lengths (xs ys : list Q) :
  length (concat (fst (meshgrid xs ys)))
  = length (concat (snd (meshgrid xs ys))).
Proof.
  unfold meshgrid; cbn [fst snd].
  induction xs as [|x xs IH]; [reflexivity|].
  cbn [map concat]; rewrite !length_app, length_map, IH; reflexivity.
Qed.

(** ** The points of [linspace] *)

Lemma linspace_length lo hi n : length (linspace lo hi n) = n.
Proof. unfold linspace; rewrite length_map, length_seq; reflexivity. Qed.

Lemma linspace_nonempty lo hi n : (1 <= n)%nat -> linspace lo hi n <> [].
Proof.
  intros H E; apply (f_equal (@length Q)) in E.
  rewrite linspace_length in E; simpl in E; lia.
Qed.

Lemma linspace_hd lo hi n :
  (1 <= n)%nat -> hd 0 (linspace lo hi n) = point lo hi n 0.
Proof. destruct n; [lia|reflexivity]. Qed.

Lemma linspace_last lo hi n :
  (1 <= n)%nat -> last (linspace lo hi n) 0 = point lo hi n (n - 1).
Proof.
  destruct n as [|n]; [lia|intros _].
  unfold linspace; rewrite seq_S, map_app; cbn [map].
  rewrite last_last; simpl; rewrite Nat.sub_0_r; reflexivity.
Qed.

Lemma linspace_in lo hi n y :
  In y (linspace lo hi n) -> exists i, (i < n)%nat /\ y = point lo hi n i.
Proof.
  unfold linspace; intros H; apply in_map_iff in H.
  destruct H as (i & <- & Hi); apply in_seq in Hi.
  exists i; split; [lia|reflexivity].
Qed.


Lemma inject_nat_le (i j : nat) :
  (i <= j)%nat -> inject_Z (Z.of_nat i) <= inject_Z (Z.of_nat j).
Proof. intros H; rewrite <- Zle_Qle; lia. Qed.

Lemma step_nonneg lo hi n :
  (2 <= n)%nat -> lo <= hi -> 0 <= (hi - lo) / inject_Z (Z.of_nat (n - 1)).
Proof.
  intros Hn H; apply Qle_shift_div_l; [|lra].
  apply Spline.inject_nat_pos; lia.
Qed.


Lemma point_first lo hi n : point lo hi n 0 == lo.
Proof. unfold point; simpl; ring. Qed.

Lemma point_last lo hi n : (2 <= n)%nat -> point lo hi n (n - 1) == hi.
Proof.
  intros Hn; unfold point; field.
  pose proof (Spline.inject_nat_pos (n - 1) ltac:(lia)) as H; lra.
Qed.

Lemma point_in_range lo hi n i :
  (2 <= n)%nat -> lo <= hi -> (i < n)%nat ->
  lo <= point lo hi n i /\ point lo hi n i <= hi.
Proof.
  intros Hn H Hi.
  pose proof (point_last lo hi n Hn) as E; unfold point in *.
  pose proof (step_nonneg lo hi n Hn H) as Hd.
  pose proof (inject_nat_le 0 i ltac:(lia)) as H0.
  change (inject_Z (Z.of_nat 0)) with 0 in H0.
  pose proof (inject_nat_le i (n - 1) ltac:(lia)) as H1.
  set (d := (hi - lo) / inject_Z (Z.of_nat (n - 1))) in *.
  split; nra.
Qed.


Lemma linspace_in_range lo hi n :
  (2 <= n)%nat -> lo <= hi ->
  Forall (fun y => lo <= y /\ y <= hi) (linspace lo hi n).
Proof.
  intros Hn H; apply Forall_forall; intros y Hy.
  apply linspace_in in Hy; destruct Hy as (i & Hi & ->).
  apply point_in_range; assumption.
Qed.

(** ** Counting rows *)











(** X4: the boundary sample is four sides of [n] points each, in the
    order left, right, bottom, top.  For [n >= 2] points per side on the
    square from [lo] to [hi], building [x_b] raises no indexing or
    stacking error; the rows of [xb1] have first coordinate [lo], those
    of [xb2] have first coordinate [hi], those of [xb3] have second
    coordinate [lo], those of [xb4] have second coordinate [hi], and the
    free coordinate always stays between [lo] and [hi]. *)
Theorem boundary_points_lie_on_the_sides :
  forall (lo hi : Q) (n : nat),
    (2 <= n)%nat -> lo <= hi ->
    exists xb1 xb2 xb3 xb4 : list (Q * Q),
      boundary_points lo hi n = Some (xb1 ++ xb2 ++ xb3 ++ xb4)
      /\ (length xb1 = n /\ length xb2 = n
          /\ length xb3 = n /\ length xb4 = n)
      /\ Forall (fun p => fst p == lo /\ lo <= snd p /\ snd p <= hi) xb1
      /\ Forall (fun p => fst p == hi /\ lo <= snd p /\ snd p <= hi) xb2
      /\ Forall (fun p => snd p == lo /\ lo <= fst p /\ fst p <= hi) xb3
      /\ Forall (fun p => snd p == hi /\ lo <= fst p /\ fst p <= hi) xb4.
Proof.
  intros lo hi n Hn H.
  pose proof (linspace_nonempty lo hi n ltac:(lia)) as Hne.
  pose proof (linspace_in_range lo hi n Hn H) as Hr.
  assert (Ha : hd 0 (linspace lo hi n) == lo).
  { rewrite linspace_hd by lia; apply point_first. }
  assert (Hb : last (linspace lo hi n) 0 == hi).
  { rewrite linspace_last by lia; apply point_last; exact Hn. }
  unfold boundary_points; rewrite (boundary_from_sides _ _ Hne Hne).
  do 4 eexists; split; [reflexivity|].
  rewrite !length_map, linspace_length.
  split; [repeat split; reflexivity|].
  repeat split; apply Forall_map; revert Hr; apply Forall_impl;
    intros y [Hy1 Hy2]; cbn [fst snd]; repeat split; assumption.
Qed.

Lemma boundary_points_lie_on_the_sides_tutorial :
  (2 <= np_i)%nat /\ fst ranges <= snd ranges
  /\ exists xb1 xb2 xb3 xb4 : list (Q * Q),
       boundary_points (fst ranges) (snd ranges) np_i
       = Some (xb1 ++ xb2 ++ xb3 ++ xb4)
       /\ (length xb1 = np_i /\ length xb2 = np_i
           /\ length xb3 = np_i /\ length xb4 = np_i)
       /\ Forall (fun p => fst p == fst ranges
                           /\ fst ranges <= snd p /\ snd p <= snd ranges) xb1
       /\ Forall (fun p => fst p == snd ranges
                           /\ fst ranges <= snd p /\ snd p <= snd ranges) xb2
       /\ Forall (fun p => snd p == fst ranges
                           /\ fst ranges <= fst p /\ fst p <= snd ranges) xb3
       /\ Forall (fun p => snd p == snd ranges
                           /\ fst ranges <= fst p /\ fst p <= snd ranges) xb4.
Proof.
  assert (Hn : (2 <= np_i)%nat) by (unfold np_i; lia).
  assert (Hr : fst ranges <= snd ranges) by (simpl; lra).
  split; [exact Hn|split; [exact Hr|]].
  apply (boundary_points_lie_on_the_sides (fst ranges) (snd ranges) np_i
           Hn Hr).
Defined.



(** X6: in ['mesh'] mode the interior sample is the full mesh.  Whatever
    the two meshes are, flattening the mesh tensors and stacking them
    raises no error and lists every pair of an abscissa and an ordinate
    exactly as [list_prod] does: abscissa by abscissa, the ordinates in
    order under each; the random draws are not used. *)
Theorem mesh_mode_lists_every_pair :
  forall (rand : list (Q * Q)) (x_mesh y_mesh : list Q),
    interior_from "mesh" rand x_mesh y_mesh = Some (list_prod x_mesh y_mesh)
    /\ length (list_prod x_mesh y_mesh)
       = (length x_mesh * length y_mesh)%nat.
Proof.
  intros rand xs ys; split; [|apply length_prod].
  unfold interior_from; cbn [String.eqb Ascii.eqb Bool.eqb].
  rewrite helper_same_length by apply mesh_lengths.
  rewrite mesh_pairs; reflexivity.
Qed.

Lemma rescale_in_domain (p : Q * Q) :
  unit_draw p -> in_square (-1) 1 (rescale p).
Proof.
  unfold unit_draw, in_square, rescale; cbn [fst snd]; intros H.
  repeat split; lra.
Qed.

(** X7: whichever sampling mode is set, the interior sample stays in the
    domain.  With [ranges = [-1, 1]], [n >= 2] and [n * n] random draws
    from [[0, 1)], [x_i] is built without error, has [n * n] rows, and
    every row lies in the square from -1 to 1: in ['mesh'] mode as a mesh
    point, in any other mode (the notebook sets ['random']) as a draw
    rescaled by [* 2 - 1]. *)
Theorem interior_points_stay_in_domain :
  forall (mode : string) (rand : list (Q * Q)) (n : nat),
    (2 <= n)%nat ->
    length rand = (n * n)%nat ->
    Forall unit_draw rand ->
    exists pts : list (Q * Q),
      interior_points mode rand (-1) 1 n = Some pts
      /\ length pts = (n * n)%nat
      /\ Forall (in_square (-1) 1) pts.
Proof.
  intros mode rand n Hn Hlen Hrand.
  unfold interior_points, interior_from.
  destruct (String.eqb mode "mesh").
  - rewrite helper_same_length by apply mesh_lengths.
    rewrite mesh_pairs.
    eexists; split; [reflexivity|split].
    + rewrite length_prod, linspace_length; reflexivity.
    + apply Forall_forall; intros [x y] Hp.
      apply in_prod_iff in Hp; destruct Hp as [Hx Hy].
      pose proof (linspace_in_range (-1) 1 n Hn ltac:(lra)) as Hr.
      rewrite Forall_forall in Hr.
      split; cbn [fst snd]; [apply Hr, Hx|apply Hr, Hy].
  - eexists; split; [reflexivity|split].
    + rewrite length_map; exact Hlen.
    + apply Forall_map; revert Hrand; apply Forall_impl.
      exact rescale_in_domain.
Qed.

Lemma interior_points_stay_in_domain_random :
  (2 <= 2)%nat
  /\ length [(0, 0); (1#2, 1#4); (3#4, 0); (99#100, 1#3)] = (2 * 2)%nat
  /\ Forall unit_draw [(0, 0); (1#2, 1#4); (3#4, 0); (99#100, 1#3)]
  /\ exists pts : list (Q * Q),
       interior_points sampling_mode
         [(0, 0); (1#2, 1#4); (3#4, 0); (99#100, 1#3)] (-1) 1 2 = Some pts
       /\ length pts = (2 * 2)%nat
       /\ Forall (in_square (-1) 1) pts.
Proof.
  assert (Hn : (2 <= 2)%nat) by lia.
  assert (Hl : length [(0, 0); (1#2, 1#4); (3#4, 0); (99#100, 1#3)]
               = (2 * 2)%nat) by reflexivity.
  assert (Hr : Forall unit_draw [(0, 0); (1#2, 1#4); (3#4, 0); (99#100, 1#3)]).
  { repeat constructor; simpl; lra. }
  split; [exact Hn|split; [exact Hl|split; [exact Hr|]]].
  apply (interior_points_stay_in_domain sampling_mode _ 2 Hn Hl Hr).
Defined.

End Sampling.

Module Loss.

Local Open Scope Q_scope.

(** Global of the notebook cell that defines [train]. *)
Definition alpha : Q := 1 # 10.

(** [torch.mean] of a column tensor given by its entries. *)
Definition mean (l : list Q) : Q :=
  Spline.sumQ l / inject_Z (Z.of_nat (length l)).

(** [(a - b)**2], entry by entry, for two column tensors of one shape. *)
Definition squared_error (a b : list Q) : list Q :=
  map (fun p => (fst p - snd p) ^ 2) (combine a b).

(** [torch.mean((a - b)**2)]: [pde_loss] for the Laplacian against the
    source term, [bc_loss] for the prediction against the solution on
    the boundary, [l2] for the prediction against the solution inside. *)
Definition mean_squared_error (a b : list Q) : Q :=
  mean (squared_error a b).

(** [loss = alpha * pde_loss + bc_loss], the value [closure] returns. *)
Definition loss (lap source bc_pred bc_true : list Q) : Q :=
  alpha * mean_squared_error lap source + mean_squared_error bc_pred bc_true.

Lemma sumQ_nonneg (l : list Q) :
  Forall (fun z => 0 <= z) l -> 0 <= Spline.sumQ l.
Proof.
  induction 1 as [|z l Hz _ IH]; simpl; [apply Qle_refl|lra].
Qed.

Lemma sumQ_zero_iff (l : list Q) :
  Forall (fun z => 0 <= z) l ->
  (Spline.sumQ l == 0 <-> Forall (fun z => z == 0) l).
Proof.
  induction 1 as [|z l Hz Hl IH]; simpl.
  - split; [constructor|reflexivity].
  - pose proof (sumQ_nonneg l Hl) as Hs; split.
    + intros E; constructor; [lra|apply IH; lra].
    + intros E; inversion E as [|? ? Ez El]; subst.
      apply IH in El; lra.
Qed.

Lemma square_nonneg (x y : Q) : 0 <= (x - y) ^ 2.
Proof. simpl; generalize (x - y); intros z; nra. Qed.

Lemma square_zero_iff (x y : Q) : (x - y) ^ 2 == 0 <-> x == y.
Proof.
  simpl; split; intros H.
  - apply Qmult_integral in H; destruct H; lra.
  - assert (E : x - y == 0) by lra; rewrite E; ring.
Qed.

Lemma squared_error_nonneg (a b : list Q) :
  Forall (fun z => 0 <= z) (squared_error a b).
Proof.
  unfold squared_error; apply Forall_map, Forall_forall; intros [x y] _.
  apply square_nonneg.
Qed.

Lemma squared_error_zero_iff : forall a b : list Q,
  length a = length b ->
  (Forall (fun z => z == 0) (squared_error a b) <-> Forall2 Qeq a b).
Proof.
  induction a as [|x a IH]; intros [|y b] H; simpl in H; try discriminate.
  - split; constructor.
  - unfold squared_error; cbn [combine map fst snd].
    split; intros E.
    + inversion E as [|? ? E1 E2]; subst; constructor.
      * apply square_zero_iff; exact E1.
      * apply IH; [lia|exact E2].
    + inversion E as [|? ? ? ? E1 E2]; subst; constructor.
      * apply square_zero_iff; exact E1.
      * apply IH; [lia|exact E2].
Qed.

Lemma squared_error_length (a b : list Q) :
  length a = length b -> length (squared_error a b) = length a.
Proof.
  intros H; unfold squared_error.
  rewrite length_map, length_combine, H; apply Nat.min_id.
Qed.

Lemma mean_nonneg (l : list Q) :
  Forall (fun z => 0 <= z) l -> l <> [] -> 0 <= mean l.
Proof.
  intros Hl Hne; unfold mean; apply Qle_shift_div_l.
  - apply Spline.inject_nat_pos; destruct l; [contradiction|simpl; lia].
  - pose proof (sumQ_nonneg l Hl); lra.
Qed.

Lemma mean_zero_iff (l : list Q) :
  l <> [] -> (mean l == 0 <-> Spline.sumQ l == 0).
Proof.
  intros Hne; unfold mean.
  assert (Hn : 0 < inject_Z (Z.of_nat (length l))).
  { apply Spline.inject_nat_pos; destruct l; [contradiction|simpl; lia]. }
  split; intros E.
  - assert (F : Spline.sumQ l
                == Spline.sumQ l / inject_Z (Z.of_nat (length l))
                   * inject_Z (Z.of_nat (length l))) by (field; lra).
    rewrite F, E; ring.
  - rewrite E; field; lra.
Qed.

Lemma mean_squared_error_nonneg (a b : list Q) :
  length a = length b -> a <> [] -> 0 <= mean_squared_error a b.
Proof.
  intros H Hne; apply mean_nonneg; [apply squared_error_nonneg|].
  intros E; apply (f_equal (@length Q)) in E.
  rewrite squared_error_length in E by exact H.
  destruct a; [contradiction|discriminate].
Qed.

Lemma mean_squared_error_zero_iff (a b : list Q) :
  length a = length b -> a <> [] ->
  (mean_squared_error a b == 0 <-> Forall2 Qeq a b).
Proof.
  intros H Hne; unfold mean_squared_error.
  rewrite mean_zero_iff.
  - rewrite sumQ_zero_iff by apply squared_error_nonneg.
    apply squared_error_zero_iff; exact H.
  - intros E; apply (f_equal (@length Q)) in E.
    rewrite squared_error_length in E by exact H.
    destruct a; [contradiction|discriminate].
Qed.

(** X8: what a zero loss means, in exact arithmetic.  For non-empty
    samples (Laplacian and source of one length, boundary prediction and
    boundary target of one length) the value returned by [closure] is
    never negative, and it is zero exactly when the Laplacian equals the
    source term at every interior sample and the prediction equals the
    target at every boundary sample. *)
Theorem loss_is_zero_only_on_a_solution :
  forall lap source bc_pred bc_true : list Q,
    length lap = length source -> lap <> [] ->
    length bc_pred = length bc_true -> bc_pred <> [] ->
    0 <= loss lap source bc_pred bc_true
    /\ (loss lap source bc_pred bc_true == 0
        <-> Forall2 Qeq lap source /\ Forall2 Qeq bc_pred bc_true).
Proof.
  intros lap source bc_pred bc_true H1 N1 H2 N2.
  pose proof (mean_squared_error_nonneg lap source H1 N1) as P1.
  pose proof (mean_squared_error_nonneg bc_pred bc_true H2 N2) as P2.
  rewrite <- (mean_squared_error_zero_iff lap source H1 N1).
  rewrite <- (mean_squared_error_zero_iff bc_pred bc_true H2 N2).
  unfold loss, alpha.
  set (p := mean_squared_error lap source) in *.
  set (b := mean_squared_error bc_pred bc_true) in *.
  split; [lra|split; [intros E; split; lra|intros [E1 E2]; lra]].
Qed.

Lemma loss_is_zero_only_on_a_solution_sample :
  length [1; 2 # 3] = length [0; 2 # 3] /\ [1; 2 # 3] <> []
  /\ length [1 # 2] = length [1 # 2] /\ [1 # 2] <> []
  /\ 0 <= loss [1; 2 # 3] [0; 2 # 3] [1 # 2] [1 # 2]
  /\ (loss [1; 2 # 3] [0; 2 # 3] [1 # 2] [1 # 2] == 0
      <-> Forall2 Qeq [1; 2 # 3] [0; 2 # 3] /\ Forall2 Qeq [1 # 2] [1 # 2]).
Proof.
  assert (H1 : length [1; 2 # 3] = length [0; 2 # 3]) by reflexivity.
  assert (N1 : [1; 2 # 3] <> []) by discriminate.
  assert (H2 : length [1 # 2] = length [1 # 2]) by reflexivity.
  assert (N2 : [1 # 2] <> []) by discriminate.
  split; [exact H1|split; [exact N1|split; [exact H2|split; [exact N2|]]]].
  apply (loss_is_zero_only_on_a_solution _ _ _ _ H1 N1 H2 N2).
Defined.

End Loss.

Module Symbolic.

(** [KAN(width=[2,2,1], ...)]: the number of nodes of each layer. *)
Definition width : list nat := [2; 2; 1].

(** An edge of a network of widths [w]: layer [l], input node [i] of
    that layer, output node [j] of the next one. *)
Definition is_edge (w : list nat) (l i j : nat) : Prop :=
  i < nth l w 0 /\ j < nth (S l) w 0.

(** The calls [model.fix_symbolic(l, i, j, name)] of the two loops of
    the cell, in program order. *)
Definition fix_calls : list (nat * nat * nat * string) :=
  flat_map (fun i => map (fun j => (0, i, j, "x"%string)) (seq 0 2)) (seq 0 2)
  ++ map (fun i => (1, i, 0, "sin"%string)) (seq 0 2).

(** The closed form the cell asks for on layer [l]. *)
Definition form_of_layer (l : nat) : string :=
  if l =? 0 then "x"%string else "sin"%string.

(** X9: the cell fixes every edge once.  The two loops call
    [fix_symbolic] on exactly the edges of the width-[2,2,1] network:
    every edge is named by one call and no call names a coordinate
    outside the network; no edge is named twice; the edges of the first
    layer get the form ['x'] and those of the second layer ['sin']. *)
Theorem every_edge_is_fixed_once :
  (forall l i j : nat,
      is_edge width l i j <-> In (l, i, j, form_of_layer l) fix_calls)
  /\ (forall (l i j : nat) (f : string),
         In (l, i, j, f) fix_calls -> f = form_of_layer l)
  /\ NoDup (map fst fix_calls)
  /\ length fix_calls = 6.
Proof.
  split; [|split; [|split]].
  - intros l i j; unfold is_edge, width; split.
    + intros [Hi Hj].
      destruct l as [|[|[|l]]]; cbn [nth] in Hi, Hj; try lia.
      * destruct i as [|[|i]]; [| |lia];
          (destruct j as [|[|j]]; [| |lia]); simpl; tauto.
      * destruct i as [|[|i]]; [| |lia];
          (destruct j as [|j]; [|lia]); simpl; tauto.
    + simpl; intros H.
      repeat (destruct H as [H|H]; [inversion H; subst; simpl; lia|]).
      contradiction.
  - intros l i j f; simpl; intros H.
    repeat (destruct H as [H|H]; [inversion H; subst; reflexivity|]).
    contradiction.
  - simpl; repeat constructor; simpl; intuition discriminate.
  - reflexivity.
Qed.

End Symbolic.
